(** * Sidebar ordering of the documentation site

    Verification of the [beforeCreateSideBarItems] callback that
    [docs/.vitepress/config.ts] hands to the auto-sidebar plugin:

    - [getOrder] extracts a numeric order key from a filename;
    - the callback sorts the array it receives by that key, in place, and
      returns a filtered copy without the [".DS_Store"] artifact.

    Filenames are strings; only ASCII characters matter to the code (the
    digit class of the regular expression and two literal comparisons), so a
    filename is modelled as a Rocq [string].  JavaScript numbers are IEEE-754
    doubles; every number the callback computes is an integer, an infinity or
    NaN, and is modelled as such, with the rounding of doubles written out. *)

From Stdlib Require Import ZArith Lia Ascii.
From Stdlib Require Floats.SpecFloat.
From stdpp Require Import base option list strings sorting gmap.

Local Open Scope Z_scope.

(** ** JavaScript numbers, as far as the callback computes them *)

Module Number.

Inductive number : Type :=
| NaN
| Fin (z : Z)      (* a double whose value is the integer z *)
| PosInf
| NegInf.

#[global] Instance number_eq_dec : EqDecision number.
Proof. solve_decision. Defined.

(** Round a non-negative integer to the nearest integer that has a 53-bit
    significand, ties to the even significand (the exponent is not bounded
    here; [of_Z] handles overflow). *)
Definition round53 (m : Z) : Z :=
  let e := Z.log2 m - 52 in
  if e <=? 0 then m
  else
    let q := Z.shiftr m e in
    let r := m - Z.shiftl q e in
    let half := Z.shiftl 1 (e - 1) in
    let q' := if r <? half then q
              else if half <? r then q + 1
              else if Z.even q then q else q + 1 in
    Z.shiftl q' e.

(** The Number value of a mathematical integer: nearest double, an
    infinity when the rounded magnitude reaches 2^1024.  The sign of a zero
    is not kept: nothing in the callback observes it. *)
Definition of_Z (z : Z) : number :=
  let m := round53 (Z.abs z) in
  if 1024 <=? Z.log2 m then (if z <? 0 then NegInf else PosInf)
  else Fin (Z.sgn z * m).

(** The same conversion through the Standard Library's specification of
    IEEE-754 arithmetic, at the binary64 format; only used to test [of_Z]. *)
Definition of_spec_float (f : SpecFloat.spec_float) : number :=
  match f with
  | SpecFloat.S754_zero _ => Fin 0
  | SpecFloat.S754_infinity s => if s then NegInf else PosInf
  | SpecFloat.S754_nan => NaN
  | SpecFloat.S754_finite s m e =>
      let v := if 0 <=? e then Z.pos m * 2 ^ e else Z.pos m / 2 ^ (- e) in
      Fin (if s then - v else v)
  end.

Definition of_Z_binary64 (z : Z) : number :=
  of_spec_float (SpecFloat.binary_normalize 53 1024 z 0 false).

(** The [-] operator on numbers. *)
Definition sub (a b : number) : number :=
  match a, b with
  | NaN, _ | _, NaN => NaN
  | Fin x, Fin y => of_Z (x - y)
  | PosInf, PosInf | NegInf, NegInf => NaN
  | PosInf, _ => PosInf
  | NegInf, _ => NegInf
  | Fin _, PosInf => NegInf
  | Fin _, NegInf => PosInf
  end.

(** [v > 0] and [v < 0]; both are false on NaN. *)
Definition gt0 (v : number) : bool :=
  match v with Fin z => 0 <? z | PosInf => true | _ => false end.
Definition lt0 (v : number) : bool :=
  match v with Fin z => z <? 0 | NegInf => true | _ => false end.

(** [a <= b] on numbers; NaN is not comparable to anything. *)
Definition le (a b : number) : Prop :=
  match a, b with
  | NaN, _ | _, NaN => False
  | NegInf, _ | _, PosInf => True
  | Fin x, Fin y => x ≤ y
  | _, _ => False
  end.

#[global] Instance le_dec a b : Decision (le a b).
Proof. destruct a, b; simpl; apply _. Defined.

Definition lt (a b : number) : Prop := le a b ∧ a ≠ b.

End Number.

Import Number.

(** ** Strings, the regular expression and [parseInt] *)

(** The class [\d] of a JavaScript regular expression: ['0'] to ['9']. *)
Definition is_digit (c : ascii) : bool :=
  let n := Z.of_N (N_of_ascii c) in (48 <=? n) && (n <=? 57).

(** The longest prefix of digits (the greedy [\d+], once it has started). *)
Fixpoint take_digits (s : string) : string :=
  match s with
  | String c s' => if is_digit c then String c (take_digits s') else EmptyString
  | EmptyString => EmptyString
  end.

(** [item.match(/(?<order>\d+)/)] followed by [res.groups.order]: the match
    starts at the leftmost position where the pattern matches, and [\d+] is
    greedy.  [None] when there is no match ([res] is [null]). *)
Fixpoint match_order (item : string) : option string :=
  match item with
  | EmptyString => None
  | String c s' =>
      if is_digit c then Some (String c (take_digits s')) else match_order s'
  end.

(** White space that [parseInt] skips, among the ASCII characters. *)
Definition is_space (c : ascii) : bool :=
  let n := Z.of_N (N_of_ascii c) in ((9 <=? n) && (n <=? 13)) || (n =? 32).

Fixpoint skip_spaces (s : string) : string :=
  match s with
  | String c s' => if is_space c then skip_spaces s' else s
  | EmptyString => EmptyString
  end.

(** Value of a character as a digit in the given radix. *)
Definition digit_value (radix : Z) (c : ascii) : option Z :=
  let n := Z.of_N (N_of_ascii c) in
  let v := if (48 <=? n) && (n <=? 57) then Some (n - 48)
           else if (97 <=? n) && (n <=? 122) then Some (n - 87)
           else if (65 <=? n) && (n <=? 90) then Some (n - 55)
           else None in
  match v with
  | Some d => if d <? radix then Some d else None
  | None => None
  end.

(** The integer denoted by the longest prefix of radix digits; [acc] is
    [None] as long as no digit has been read. *)
Fixpoint parse_digits (radix : Z) (acc : option Z) (s : string) : option Z :=
  match s with
  | EmptyString => acc
  | String c s' =>
      match digit_value radix c with
      | Some d => parse_digits radix (Some (radix * default 0 acc + d)) s'
      | None => acc
      end
  end.

(** [parseInt(s)] with no radix argument: skip white space, read a sign,
    switch to radix 16 on a [0x] or [0X] prefix, read the longest prefix of
    digits; NaN when that prefix is empty, else the Number value of the
    signed integer. *)
Definition parseInt (s : string) : number :=
  let s1 := skip_spaces s in
  let '(neg, s2) :=
    match s1 with
    | String "-" t => (true, t)
    | String "+" t => (false, t)
    | _ => (false, s1)
    end in
  let '(radix, s3) :=
    match s2 with
    | String "0" (String "x" t) | String "0" (String "X" t) => (16, t)
    | _ => (10, s2)
    end in
  match parse_digits radix None s3 with
  | None => NaN
  | Some n => of_Z (if neg then - n else n)
  end.

(** ** The order key *)

Definition getOrder (item : string) : number :=
  if decide (item = "index.md") then Fin 0
  else
    match match_order item with
    | Some order => parseInt order
    | None => Fin 999
    end.

(** *** Reading a filename the way the documentation of the key does

    These definitions do not come from the code: they say what "the leftmost
    maximal run of digits" and "the integer it denotes" mean, to compare
    [getOrder] with. *)

Fixpoint string_forall (p : ascii → bool) (s : string) : bool :=
  match s with
  | EmptyString => true
  | String c s' => p c && string_forall p s'
  end.

Definition all_digits (s : string) : bool := string_forall is_digit s.
Definition no_digit (s : string) : bool :=
  string_forall (λ c, negb (is_digit c)) s.
Definition has_digit (s : string) : bool := negb (no_digit s).

Definition starts_with_digit (s : string) : bool :=
  match s with
  | String c _ => is_digit c
  | EmptyString => false
  end.

(** [run] is the leftmost maximal run of digits of [item]: no digit before
    it, it is not empty, and no digit follows it immediately. *)
Definition leftmost_run (item run : string) : Prop :=
  ∃ pre post,
    item = pre +:+ run +:+ post ∧
    no_digit pre = true ∧
    all_digits run = true ∧ run ≠ EmptyString ∧
    starts_with_digit post = false.

(** Positional reading of a string of decimal digits. *)
Definition digit_of (c : ascii) : Z := Z.of_N (N_of_ascii c) - 48.

Fixpoint decimal_value (run : string) : Z :=
  match run with
  | EmptyString => 0
  | String c r => digit_of c * 10 ^ Z.of_nat (String.length r) + decimal_value r
  end.

(** ** [Array.prototype.sort] and [Array.prototype.filter] on contents *)

Section array_methods.
Context {A : Type}.

(** [comparefn(x, y) > 0]: [x] has to come after [y].  A comparator result
    that is NaN counts as [+0], so it never moves anything. *)
Definition sorts_after (comparefn : A → A → number) (x y : A) : bool :=
  gt0 (comparefn x y).

(** Insertion of [x], which stood before every element of [l], into the
    sorted [l]: [x] moves right only past elements it has to come after. *)
Fixpoint insert_by (after : A → A → bool) (x : A) (l : list A) : list A :=
  match l with
  | [] => [x]
  | y :: l' => if after x y then y :: insert_by after x l' else x :: y :: l'
  end.

Definition stable_sort_by (after : A → A → bool) (l : list A) : list A :=
  foldr (insert_by after) [] l.

(** The contents of an array after [sort(comparefn)].  The language
    (ECMAScript 2019 and later) fixes the result for a consistent comparator,
    sorted and stable, and leaves the algorithm open; [stable_sort_unique]
    below shows that the result does not depend on the algorithm chosen
    here, and [compareFn_consistent] that the comparator is consistent. *)
Definition Array_sort (comparefn : A → A → number) (l : list A) : list A :=
  stable_sort_by (sorts_after comparefn) l.

(** The contents of the array that [filter(p)] creates. *)
Definition Array_filter (p : A → bool) (l : list A) : list A :=
  filter (λ x, p x = true) l.

(** Ascending order of a numeric key, and keeping the relative order of the
    elements that share a key. *)
Definition key_le (key : A → number) : relation A :=
  λ x y, le (key x) (key y).

Definition ascending (key : A → number) (l : list A) : Prop :=
  StronglySorted (key_le key) l.

Definition same_order_within_keys (key : A → number) (l1 l2 : list A) : Prop :=
  ∀ k, filter (λ x, key x = k) l1 = filter (λ x, key x = k) l2.

(** A stable sort by key that compares the keys themselves. *)
Definition stable_sort_by_key (key : A → number) (l : list A) : list A :=
  stable_sort_by (λ x y, bool_decide (¬ le (key x) (key y))) l.
End array_methods.

(** ** The callback *)

(** The comparator passed to [sort]: [(a, b) => getOrder(a) - getOrder(b)]. *)
Definition compareFn (a b : string) : number :=
  sub (getOrder a) (getOrder b).

(** The predicate passed to [filter]: [(n) => n != ".DS_Store"]. *)
Definition not_DS_Store (n : string) : bool :=
  bool_decide (n ≠ ".DS_Store").

(** Contents of the array the callback returns, as a function of the
    contents of the array it is given. *)
Definition sideBarItems (data : list string) : list string :=
  Array_filter not_DS_Store (Array_sort compareFn data).

(** Contents of the argument array when the callback has returned. *)
Definition data_after (data : list string) : list string :=
  Array_sort compareFn data.

(** The operation as its description orders it: first remove the artifact,
    then stable-sort what remains by order key. *)
Definition filterAndSort_described (filenames : list string) : list string :=
  stable_sort_by_key getOrder (filter (λ n, n ≠ ".DS_Store") filenames).

(** *** The callback on a store of arrays

    Arrays are objects: the callback receives a reference, [sort] writes
    through it, and [filter] allocates a new array. *)

Module Store.

Definition loc := positive.
Abbreviation heap := (gmap loc (list string)).

(** Computations on the store that may fail (a dangling reference). *)
Definition M (T : Type) : Type := heap → option (T * heap).

#[global] Instance M_ret : MRet M := λ T x h, Some (x, h).
#[global] Instance M_bind : MBind M := λ T U f m h,
  match m h with
  | Some (x, h') => f x h'
  | None => None
  end.

(** [a.sort(comparefn)]: sorts the array [a] in place and returns [a]. *)
Definition sort (a : loc) (comparefn : string → string → number) : M loc :=
  λ h, match h !! a with
       | Some l => Some (a, <[a := Array_sort comparefn l]> h)
       | None => None
       end.

(** [a.filter(p)]: a new array with the elements of [a] that satisfy [p]. *)
Definition filter (a : loc) (p : string → bool) : M loc :=
  λ h, match h !! a with
       | Some l =>
           let r := fresh (dom h) in
           Some (r, <[r := Array_filter p l]> h)
       | None => None
       end.

Definition beforeCreateSideBarItems (data : loc) : M loc :=
  sort data compareFn ;;
  filter data not_DS_Store.

(** One call on an array of the store, observed from outside: the contents
    of the returned array and the contents of the argument array when the
    call has returned. *)
Definition call (data : loc) (h : heap) : option (list string * list string) :=
  match beforeCreateSideBarItems data h with
  | Some (r, h') =>
      match h' !! r, h' !! data with
      | Some result, Some arg => Some (result, arg)
      | _, _ => None
      end
  | None => None
  end.

End Store.

(** * Properties *)

(** ** The model on concrete inputs *)

Example getOrder_index : getOrder "index.md" = Fin 0.
Proof. reflexivity. Qed.
Example getOrder_guide : getOrder "10-guide.md" = Fin 10.
Proof. vm_compute. reflexivity. Qed.
Example getOrder_a2b30 : getOrder "a2b30.md" = Fin 2.
Proof. vm_compute. reflexivity. Qed.
Example getOrder_0_intro : getOrder "0-intro.md" = Fin 0.
Proof. vm_compute. reflexivity. Qed.
Example getOrder_about : getOrder "about.md" = Fin 999.
Proof. vm_compute. reflexivity. Qed.
Example getOrder_007 : getOrder "007.md" = Fin 7.
Proof. vm_compute. reflexivity. Qed.
Example getOrder_2p53_plus_1 :
  getOrder "9007199254740993.md" = Fin 9007199254740992.
Proof. vm_compute. reflexivity. Qed.
Example getOrder_2p53_plus_3 :
  getOrder "9007199254740995.md" = Fin 9007199254740996.
Proof. vm_compute. reflexivity. Qed.

(** [of_Z] against the IEEE-754 specification: small integers, both sides of
    2^53, ties, and both sides of the overflow threshold. *)
Example of_Z_agrees_with_binary64 :
  forallb (λ z, bool_decide (of_Z z = of_Z_binary64 z))
    [0; 1; -7; 999; 2 ^ 53 - 1; 2 ^ 53; 2 ^ 53 + 1; 2 ^ 53 + 2; 2 ^ 53 + 3;
     - (2 ^ 53 + 1); 2 ^ 60 + 2 ^ 7; 2 ^ 60 + 2 ^ 7 + 1; 2 ^ 60 + 3 * 2 ^ 7;
     10 ^ 30; 123456789012345678901234567890;
     2 ^ 1024 - 2 ^ 970 - 1; 2 ^ 1024 - 2 ^ 970; - (2 ^ 1024 - 2 ^ 970);
     2 ^ 1024; 10 ^ 400]
  = true.
Proof. by vm_compute. Qed.

Example sideBarItems_example :
  sideBarItems ["b.md"; "3.md"; ".DS_Store"; "a.md"; "index.md"; "03-x.md"]
  = ["index.md"; "3.md"; "03-x.md"; "b.md"; "a.md"].
Proof. vm_compute. reflexivity. Qed.

Example store_example :
  Store.beforeCreateSideBarItems 1%positive {[ 1%positive := ["2.md"; ".DS_Store"; "1.md"] ]}
  = Some (2%positive,
          <[ 2%positive := ["1.md"; "2.md"] ]>
            (<[ 1%positive := ["1.md"; "2.md"; ".DS_Store"] ]>
               {[ 1%positive := ["2.md"; ".DS_Store"; "1.md"] ]})).
Proof. vm_compute. reflexivity. Qed.


(** ** Numbers *)

Module NumberFacts.

Lemma round53_small m : Z.log2 m ≤ 52 → round53 m = m.
Proof.
  intros H. unfold round53.
  destruct (Z.leb_spec (Z.log2 m - 52) 0); [done | lia].
Qed.

Lemma round53_pos m : 0 < m → 0 < round53 m.
Proof.
  intros Hm. unfold round53.
  destruct (Z.leb_spec (Z.log2 m - 52) 0) as [|He]; [done|].
  set (e := Z.log2 m - 52) in *.
  assert (Hq : 0 < Z.shiftr m e).
  { rewrite Z.shiftr_div_pow2 by lia.
    apply Z.div_str_pos. split; [apply Z.pow_pos_nonneg; lia|].
    transitivity (2 ^ Z.log2 m).
    - apply Z.pow_le_mono_r; lia.
    - apply Z.log2_spec; lia. }
  set (q := Z.shiftr m e) in *.
  assert (Hq' : 0 < (if m - Z.shiftl q e <? Z.shiftl 1 (e - 1) then q
                     else if Z.shiftl 1 (e - 1) <? m - Z.shiftl q e then q + 1
                     else if Z.even q then q else q + 1)).
  { repeat case_match; lia. }
  rewrite Z.shiftl_mul_pow2 by lia.
  apply Z.mul_pos_pos; [done | apply Z.pow_pos_nonneg; lia].
Qed.

Lemma round53_nonneg m : 0 ≤ m → 0 ≤ round53 m.
Proof.
  intros Hm. destruct (decide (m = 0)) as [->|]; [done|].
  apply Z.lt_le_incl, round53_pos. lia.
Qed.

(** Integers up to 2^53 in magnitude are doubles. *)
Lemma round53_exact m : 0 ≤ m ≤ 2 ^ 53 → round53 m = m.
Proof.
  intros [H0 Hm]. destruct (decide (m = 2 ^ 53)) as [->|]; [done|].
  apply round53_small. destruct (decide (m = 0)) as [->|]; [done|].
  assert (Z.log2 m < 53); [|lia]. apply Z.log2_lt_pow2; lia.
Qed.

Lemma of_Z_exact z : Z.abs z ≤ 2 ^ 53 → of_Z z = Fin z.
Proof.
  intros Hz. unfold of_Z. rewrite round53_exact by lia.
  destruct (Z.leb_spec 1024 (Z.log2 (Z.abs z))) as [Hl|_].
  - assert (Z.log2 (Z.abs z) ≤ Z.log2 (2 ^ 53)) by (apply Z.log2_le_mono; lia).
    rewrite Z.log2_pow2 in * by lia. lia.
  - f_equal. lia.
Qed.

(** Rounding keeps the sign, so the sign of a difference of two doubles
    tells which one is larger. *)
Lemma gt0_of_Z z : gt0 (of_Z z) = (0 <? z).
Proof.
  unfold of_Z.
  destruct (Z.ltb_spec 0 z) as [Hz|Hz].
  - pose proof (round53_pos (Z.abs z) ltac:(lia)).
    case_match; [case_match; [lia | done]|]. simpl. apply Z.ltb_lt. nia.
  - pose proof (round53_nonneg (Z.abs z) ltac:(lia)).
    case_match.
    + destruct (Z.ltb_spec z 0); [done|].
      replace z with 0 in * by lia. done.
    + simpl. apply Z.ltb_ge. nia.
Qed.

Lemma lt0_of_Z z : lt0 (of_Z z) = (z <? 0).
Proof.
  unfold of_Z.
  destruct (Z.ltb_spec z 0) as [Hz|Hz].
  - pose proof (round53_pos (Z.abs z) ltac:(lia)).
    case_match; [done|]. simpl. apply Z.ltb_lt. nia.
  - pose proof (round53_nonneg (Z.abs z) ltac:(lia)).
    case_match; [done|]. simpl. apply Z.ltb_ge. nia.
Qed.

Lemma of_Z_nonneg z : 0 ≤ z → le (Fin 0) (of_Z z).
Proof.
  intros Hz. unfold of_Z.
  pose proof (round53_nonneg (Z.abs z) ltac:(lia)).
  case_match.
  - destruct (Z.ltb_spec z 0); [lia | done].
  - simpl. nia.
Qed.

Lemma of_Z_not_NaN z : of_Z z ≠ NaN.
Proof. unfold of_Z. repeat case_match; done. Qed.

Lemma le_refl a : a ≠ NaN → le a a.
Proof. destruct a; simpl; [done | lia | done | done]. Qed.

Lemma le_trans a b c : le a b → le b c → le a c.
Proof. destruct a, b, c; simpl; try done; lia. Qed.

Lemma le_total a b : a ≠ NaN → b ≠ NaN → le a b ∨ le b a.
Proof. destruct a, b; simpl; try done; try lia; auto. Qed.

Lemma le_antisym a b : le a b → le b a → a = b.
Proof. destruct a, b; simpl; try done. intros. f_equal. lia. Qed.

Lemma le_not_NaN_l a b : le a b → a ≠ NaN.
Proof. destruct a; done. Qed.

Lemma le_not_NaN_r a b : le a b → b ≠ NaN.
Proof. destruct a, b; done. Qed.

(** The comparator result [a - b] is positive exactly when [a <= b] fails. *)
Lemma gt0_sub a b : a ≠ NaN → b ≠ NaN → gt0 (sub a b) = true ↔ ¬ le a b.
Proof.
  intros Ha Hb. destruct a as [|x| |], b as [|y| |]; simpl; try done;
    try (split; [intros _ []|done]); try (split; [done | intros H; by destruct H]).
  rewrite gt0_of_Z, Z.ltb_lt. lia.
Qed.

(** Seen from the other side: [a - b] is negative exactly when [b - a] is
    positive. *)
Lemma lt0_sub a b : lt0 (sub a b) = gt0 (sub b a).
Proof.
  destruct a as [|x| |], b as [|y| |]; simpl; try done.
  rewrite lt0_of_Z, gt0_of_Z.
  destruct (Z.ltb_spec (x - y) 0), (Z.ltb_spec 0 (y - x)); lia || done.
Qed.

End NumberFacts.

(** ** Digits, the match and [parseInt] *)

Section digits.

Lemma is_digit_cases c :
  is_digit c = true →
  c ∈ ["0"; "1"; "2"; "3"; "4"; "5"; "6"; "7"; "8"; "9"]%char.
Proof.
  destruct c as [[] [] [] [] [] [] [] []]; intros H;
    try discriminate H; set_solver.
Qed.

Lemma digit_of_range c : is_digit c = true → 0 ≤ digit_of c ≤ 9.
Proof.
  unfold is_digit, digit_of. intros H.
  apply andb_prop in H as [?%Z.leb_le ?%Z.leb_le]. lia.
Qed.

Lemma digit_value_digit c :
  is_digit c = true → digit_value 10 c = Some (digit_of c).
Proof.
  intros H. pose proof (digit_of_range c H) as Hr.
  unfold digit_value, digit_of, is_digit in *. rewrite H.
  destruct (Z.ltb_spec (Z.of_N (N_of_ascii c) - 48) 10); [done | lia].
Qed.

Lemma decimal_value_nonneg s : all_digits s = true → 0 ≤ decimal_value s.
Proof.
  induction s as [|c s IH]; simpl; [done|].
  intros [Hc Hs]%andb_prop. pose proof (digit_of_range c Hc).
  specialize (IH Hs).
  assert (0 < 10 ^ Z.of_nat (String.length s)) by (apply Z.pow_pos_nonneg; lia).
  nia.
Qed.

(** Reading digits left to right with an accumulator gives the positional
    value. *)
Lemma parse_digits_acc s a :
  all_digits s = true →
  parse_digits 10 (Some a) s
  = Some (a * 10 ^ Z.of_nat (String.length s) + decimal_value s).
Proof.
  revert a. induction s as [|c s IH]; intros a; simpl.
  - intros _. f_equal. lia.
  - intros [Hc Hs]%andb_prop. rewrite (digit_value_digit c Hc), IH by done.
    f_equal. rewrite Nat2Z.inj_succ, Z.pow_succ_r by lia. lia.
Qed.

Lemma parse_digits_decimal c s :
  all_digits (String c s) = true →
  parse_digits 10 None (String c s) = Some (decimal_value (String c s)).
Proof.
  simpl. intros [Hc Hs]%andb_prop.
  rewrite (digit_value_digit c Hc), parse_digits_acc by done.
  simpl. f_equal.
Qed.

(** On a non-empty string of decimal digits, [parseInt] finds no white
    space, no sign and no [0x] prefix, and reads all of it in radix 10. *)
Lemma parseInt_digits s :
  all_digits s = true → s ≠ EmptyString →
  parseInt s = of_Z (decimal_value s).
Proof.
  destruct s as [|c t]; [done|]. intros Hall _.
  pose proof (parse_digits_decimal c t Hall) as Hp.
  pose proof Hall as [Hc Ht]%andb_prop. fold (all_digits t) in Ht.
  unfold parseInt. revert Hp.
  generalize (decimal_value (String c t)), parse_digits. intros v read Hp.
  assert (Hsp : skip_spaces (String c t) = String c t).
  { apply is_digit_cases in Hc. set_unfold.
    destruct Hc as [->|[->|[->|[->|[->|[->|[->|[->|[->|[->|[]]]]]]]]]]]; done. }
  rewrite Hsp. clear Hsp.
  destruct (decide (c = "0"%char)) as [->|Hc0].
  - destruct t as [|c2 t2].
    + simpl. by rewrite Hp.
    + pose proof Ht as [Hc2 _]%andb_prop.
      apply is_digit_cases in Hc2. set_unfold.
      destruct Hc2 as [->|[->|[->|[->|[->|[->|[->|[->|[->|[->|[]]]]]]]]]]];
        simpl; by rewrite Hp.
  - apply is_digit_cases in Hc. set_unfold.
    destruct Hc as [->|[->|[->|[->|[->|[->|[->|[->|[->|[->|[]]]]]]]]]]];
      try done; simpl; by rewrite Hp.
Qed.

Lemma append_nil_l s : EmptyString +:+ s = s.
Proof. reflexivity. Qed.

Lemma append_cons c s t : String c s +:+ t = String c (s +:+ t).
Proof. reflexivity. Qed.

Lemma take_digits_run run post :
  all_digits run = true → starts_with_digit post = false →
  take_digits (run +:+ post) = run.
Proof.
  intros Hrun Hpost. induction run as [|c run IH].
  - destruct post as [|c post]; [done|].
    rewrite append_nil_l. cbn [take_digits starts_with_digit] in *. by rewrite Hpost.
  - change (is_digit c && all_digits run = true) in Hrun.
    apply andb_prop in Hrun as [Hc Hrun].
    rewrite append_cons. cbn [take_digits]. by rewrite Hc, IH.
Qed.

Lemma all_digits_cons c s :
  all_digits (String c s) = is_digit c && all_digits s.
Proof. reflexivity. Qed.

Lemma no_digit_cons c s :
  no_digit (String c s) = negb (is_digit c) && no_digit s.
Proof. reflexivity. Qed.

Lemma take_digits_all s : all_digits (take_digits s) = true.
Proof.
  induction s as [|c s IH]; [done|]. cbn [take_digits].
  destruct (is_digit c) eqn:Hc; [|done]. by rewrite all_digits_cons, Hc, IH.
Qed.

(** The match of the regular expression is the leftmost maximal run. *)
Lemma match_order_run item run :
  leftmost_run item run → match_order item = Some run.
Proof.
  intros (pre & post & -> & Hpre & Hrun & Hne & Hpost).
  induction pre as [|c pre IH].
  - destruct run as [|c run]; [done|].
    rewrite all_digits_cons in Hrun. apply andb_prop in Hrun as [Hc Hrun].
    rewrite append_nil_l, append_cons. cbn [match_order]. rewrite Hc.
    f_equal. f_equal. by apply take_digits_run.
  - rewrite no_digit_cons in Hpre. apply andb_prop in Hpre as [Hc Hpre].
    apply negb_true_iff in Hc. rewrite append_cons. cbn [match_order].
    rewrite Hc. by apply IH.
Qed.

Lemma match_order_digits item order :
  match_order item = Some order →
  all_digits order = true ∧ order ≠ EmptyString.
Proof.
  induction item as [|c item IH]; [done|]. cbn [match_order].
  destruct (is_digit c) eqn:Hc; [|done].
  intros [= <-]. split; [|done].
  by rewrite all_digits_cons, Hc, take_digits_all.
Qed.

Lemma match_order_None item :
  match_order item = None ↔ no_digit item = true.
Proof.
  induction item as [|c item IH]; [done|].
  rewrite no_digit_cons. cbn [match_order].
  destruct (is_digit c); simpl; [split; done | done].
Qed.

(** A filename with a digit has a leftmost maximal run. *)
Lemma leftmost_run_exists item :
  has_digit item = true → ∃ run, leftmost_run item run.
Proof.
  unfold has_digit. rewrite negb_true_iff.
  induction item as [|c item IH]; [done|]. rewrite no_digit_cons.
  destruct (is_digit c) eqn:Hc; simpl.
  - intros _. clear IH. exists (String c (take_digits item)).
    assert (∃ post, item = take_digits item +:+ post
                    ∧ starts_with_digit post = false) as (post & Hi & Hp).
    { clear. induction item as [|d item (post & Hi & Hp)].
      - by exists EmptyString.
      - cbn [take_digits]. destruct (is_digit d) eqn:Hd.
        + exists post. by rewrite append_cons, <-Hi.
        + by exists (String d item). }
    exists EmptyString, post. rewrite append_nil_l, append_cons, <-Hi.
    split_and!; [done | done | | done | done].
    by rewrite all_digits_cons, Hc, take_digits_all.
  - intros (run & pre & post & -> & Hpre & Hrun & Hne & Hpost)%IH.
    exists run, (String c pre), post. rewrite no_digit_cons, Hc, append_cons.
    by repeat split.
Qed.

Lemma leftmost_run_has_digit item run :
  leftmost_run item run → has_digit item = true.
Proof.
  intros H%match_order_run. unfold has_digit.
  destruct (no_digit item) eqn:Hn; [|done].
  apply match_order_None in Hn. congruence.
Qed.

End digits.

(** ** The order key *)

Section order_key.

Lemma getOrder_run item run :
  item ≠ "index.md" → leftmost_run item run →
  getOrder item = of_Z (decimal_value run).
Proof.
  intros Hne Hrun. unfold getOrder. rewrite decide_False by done.
  rewrite (match_order_run _ _ Hrun).
  destruct Hrun as (_ & _ & _ & _ & Hd & Hn & _). by apply parseInt_digits.
Qed.

Lemma getOrder_no_digit item :
  item ≠ "index.md" → no_digit item = true → getOrder item = Fin 999.
Proof.
  intros Hne Hnd. unfold getOrder. rewrite decide_False by done.
  apply match_order_None in Hnd. by rewrite Hnd.
Qed.

(** Order keys are never negative (and never NaN). *)
Lemma getOrder_nonneg item : le (Fin 0) (getOrder item).
Proof.
  unfold getOrder. case_decide; [simpl; lia|].
  destruct (match_order item) as [order|] eqn:Hm; [|simpl; lia].
  apply match_order_digits in Hm as [Hd Hn].
  rewrite parseInt_digits by done.
  apply NumberFacts.of_Z_nonneg. by apply decimal_value_nonneg.
Qed.

Lemma getOrder_not_NaN item : getOrder item ≠ NaN.
Proof. eapply NumberFacts.le_not_NaN_r, getOrder_nonneg. Qed.

End order_key.

(** ** Stable sorting by a numeric key *)

Section stable_sort.
Context {A : Type} (key : A → number) (after : A → A → bool).
Hypothesis key_not_NaN : ∀ x, key x ≠ NaN.
Hypothesis after_spec : ∀ x y, after x y = true ↔ ¬ le (key x) (key y).

#[local] Instance key_le_trans : Transitive (key_le key).
Proof. intros x y z. apply NumberFacts.le_trans. Qed.

Lemma key_le_refl x : key_le key x x.
Proof. apply NumberFacts.le_refl, key_not_NaN. Qed.

Lemma after_key_le x y : after x y = true → key_le key y x.
Proof.
  intros H%after_spec.
  destruct (NumberFacts.le_total (key x) (key y)); auto; tauto.
Qed.

Lemma not_after_key_le x y : after x y = false → key_le key x y.
Proof.
  intros H. destruct (decide (le (key x) (key y))) as [|Hn]; [done|].
  apply after_spec in Hn. congruence.
Qed.

Lemma insert_by_perm x l : insert_by after x l ≡ₚ x :: l.
Proof.
  induction l as [|y l IH]; simpl; [done|].
  destruct (after x y); [|done]. rewrite IH. apply Permutation_swap.
Qed.

Lemma stable_sort_by_perm l : stable_sort_by after l ≡ₚ l.
Proof.
  induction l as [|x l IH]; simpl; [done|].
  by rewrite insert_by_perm, IH.
Qed.

Lemma insert_by_ascending x l :
  ascending key l → ascending key (insert_by after x l).
Proof.
  unfold ascending. induction l as [|y l IH]; simpl.
  - intros _. repeat constructor.
  - rewrite StronglySorted_cons. intros [Hy Hl].
    destruct (after x y) eqn:Hxy.
    + apply StronglySorted_cons. split; [|by apply IH].
      rewrite insert_by_perm. constructor; [|done]. by apply after_key_le.
    + apply not_after_key_le in Hxy.
      apply StronglySorted_cons. split; [|by apply StronglySorted_cons].
      constructor; [done|].
      eapply Forall_impl; [done|]. intros z Hz. by etransitivity.
Qed.

Lemma stable_sort_by_ascending l : ascending key (stable_sort_by after l).
Proof.
  induction l as [|x l IH]; simpl; [constructor|].
  by apply insert_by_ascending.
Qed.

Lemma insert_by_stable k x l :
  filter (λ z, key z = k) (insert_by after x l)
  = filter (λ z, key z = k) (x :: l).
Proof.
  induction l as [|y l IH]; simpl; [done|].
  destruct (after x y) eqn:Hxy; [|done].
  rewrite filter_cons, IH, !filter_cons.
  repeat case_decide; try done.
  apply after_spec in Hxy. destruct Hxy.
  replace (key x) with (key y) by congruence. apply key_le_refl.
Qed.

Lemma stable_sort_by_stable l :
  same_order_within_keys key (stable_sort_by after l) l.
Proof.
  intros k. induction l as [|x l IH]; simpl; [done|].
  by rewrite insert_by_stable, !filter_cons, IH.
Qed.

End stable_sort.

Section stable_sort_unique.
Context {A : Type} (key : A → number).

(** Two lists sorted by key that list the elements of each key in the same
    order are equal: sortedness, permutation and stability determine the
    result of a sort. *)
Lemma stable_sort_unique (l1 l2 : list A) :
  ascending key l1 → ascending key l2 →
  same_order_within_keys key l1 l2 → l1 = l2.
Proof.
  unfold ascending, same_order_within_keys.
  revert l2. induction l1 as [|x l1 IH]; intros l2 H1 H2 Hst.
  - destruct l2 as [|y l2]; [done|].
    specialize (Hst (key y)). rewrite filter_cons_True in Hst by done. done.
  - destruct l2 as [|y l2].
    { specialize (Hst (key x)). rewrite filter_cons_True in Hst by done. done. }
    apply StronglySorted_cons in H1 as [Hx H1].
    apply StronglySorted_cons in H2 as [Hy H2].
    assert (Hyl : y ∈ x :: l1).
    { pose proof (Hst (key y)) as E.
      rewrite (filter_cons_True _ y) in E by done.
      assert (y ∈ filter (λ z, key z = key y) (x :: l1)) as Hin
        by (rewrite E; left).
      by apply list_elem_of_filter in Hin as [_ ?]. }
    assert (Hxl : x ∈ y :: l2).
    { pose proof (Hst (key x)) as E.
      rewrite (filter_cons_True _ x) in E by done.
      assert (x ∈ filter (λ z, key z = key x) (y :: l2)) as Hin
        by (rewrite <-E; left).
      by apply list_elem_of_filter in Hin as [_ ?]. }
    assert (Hk : key x = key y).
    { apply elem_of_cons in Hyl as [->|Hyl]; [done|].
      apply elem_of_cons in Hxl as [->|Hxl]; [done|].
      rewrite Forall_forall in Hx, Hy.
      apply NumberFacts.le_antisym; [by apply Hx | by apply Hy]. }
    pose proof (Hst (key x)) as E.
    rewrite !filter_cons, decide_True, decide_True in E by done.
    injection E as -> E. f_equal. apply IH; [done | done |].
    intros k. specialize (Hst k). rewrite !filter_cons in Hst.
    case_decide; [by injection Hst | done].
Qed.

End stable_sort_unique.

(** ** Filtering keeps order *)

Section filter_facts.
Context {A : Type} (key : A → number).
Context (P : A → Prop) `{!∀ x, Decision (P x)}.

Lemma ascending_filter (l : list A) :
  ascending key l → ascending key (filter P l).
Proof.
  unfold ascending. induction l as [|x l IH]; [done|].
  rewrite StronglySorted_cons. intros [Hx Hl]. rewrite filter_cons.
  case_decide; [|by apply IH].
  apply StronglySorted_cons. split; [|by apply IH].
  rewrite Forall_forall in *. intros y [_ Hy]%list_elem_of_filter. by apply Hx.
Qed.

Lemma filter_none (l : list A) : (∀ x, x ∈ l → ¬ P x) → filter P l = [].
Proof.
  induction l as [|x l IH]; [done|]. intros Hl.
  rewrite filter_cons_False by (apply Hl; left).
  apply IH. intros y Hy. apply Hl. by right.
Qed.

Lemma filter_all (l : list A) : (∀ x, x ∈ l → P x) → filter P l = l.
Proof.
  induction l as [|x l IH]; [done|]. intros Hl.
  rewrite filter_cons_True by (apply Hl; left).
  f_equal. apply IH. intros y Hy. apply Hl. by right.
Qed.

Lemma filter_key_comm k (l : list A) :
  filter (λ x, key x = k) (filter P l) = filter P (filter (λ x, key x = k) l).
Proof. rewrite !list_filter_filter. apply list_filter_iff. tauto. Qed.

Lemma same_order_filter (l1 l2 : list A) :
  same_order_within_keys key l1 l2 →
  same_order_within_keys key (filter P l1) (filter P l2).
Proof. intros Hso k. by rewrite !filter_key_comm, (Hso k). Qed.

End filter_facts.

(** ** The callback: sorting through the comparator *)

Section callback.

Lemma compareFn_after x y :
  sorts_after compareFn x y = true ↔ ¬ le (getOrder x) (getOrder y).
Proof. apply NumberFacts.gt0_sub; apply getOrder_not_NaN. Qed.

(** The comparator is consistent: it orders two filenames the same way
    whichever is passed first, and through [compareFn_after] it is the order
    of the keys, which is transitive.  This is what the language asks of a
    comparator to guarantee a sorted and stable result. *)
Lemma compareFn_consistent x y :
  lt0 (compareFn x y) = sorts_after compareFn y x.
Proof. apply NumberFacts.lt0_sub. Qed.

Lemma by_key_after (x y : string) :
  bool_decide (¬ le (getOrder x) (getOrder y)) = true
  ↔ ¬ le (getOrder x) (getOrder y).
Proof. apply bool_decide_eq_true. Qed.

Lemma Array_sort_perm l : Array_sort compareFn l ≡ₚ l.
Proof. apply stable_sort_by_perm. Qed.

Lemma Array_sort_ascending l : ascending getOrder (Array_sort compareFn l).
Proof.
  apply stable_sort_by_ascending;
    [apply getOrder_not_NaN | apply compareFn_after].
Qed.

Lemma Array_sort_stable l :
  same_order_within_keys getOrder (Array_sort compareFn l) l.
Proof.
  apply stable_sort_by_stable;
    [apply getOrder_not_NaN | apply compareFn_after].
Qed.

(** Sorting changes nothing exactly when the array is already in ascending
    order of keys. *)
Lemma Array_sort_id l :
  Array_sort compareFn l = l ↔ ascending getOrder l.
Proof.
  split.
  - intros <-. apply Array_sort_ascending.
  - intros H. apply (stable_sort_unique getOrder);
      [apply Array_sort_ascending | done | apply Array_sort_stable].
Qed.

Lemma Array_filter_not_DS_Store l :
  Array_filter not_DS_Store l = filter (λ n, n ≠ ".DS_Store") l.
Proof.
  unfold Array_filter, not_DS_Store. apply list_filter_iff.
  intros n. apply bool_decide_eq_true.
Qed.

Lemma sideBarItems_unfold data :
  sideBarItems data
  = filter (λ n, n ≠ ".DS_Store") (Array_sort compareFn data).
Proof. apply Array_filter_not_DS_Store. Qed.

Lemma sideBarItems_perm data :
  sideBarItems data ≡ₚ filter (λ n, n ≠ ".DS_Store") data.
Proof. by rewrite sideBarItems_unfold, Array_sort_perm. Qed.

Lemma sideBarItems_ascending data : ascending getOrder (sideBarItems data).
Proof.
  rewrite sideBarItems_unfold. apply ascending_filter, Array_sort_ascending.
Qed.

Lemma sideBarItems_stable data :
  same_order_within_keys getOrder
    (sideBarItems data) (filter (λ n, n ≠ ".DS_Store") data).
Proof.
  rewrite sideBarItems_unfold. apply same_order_filter, Array_sort_stable.
Qed.

Lemma sideBarItems_no_DS_Store data : ".DS_Store" ∉ sideBarItems data.
Proof.
  rewrite sideBarItems_unfold. by intros [? _]%list_elem_of_filter.
Qed.

(** What a call does to the store: the argument array is overwritten with
    its sorted contents and the result is a newly allocated array. *)
Lemma beforeCreateSideBarItems_run (h : Store.heap) data l :
  h !! data = Some l →
  let h1 := <[data := data_after l]> h in
  let r := fresh (dom h1) in
  Store.beforeCreateSideBarItems data h
  = Some (r, <[r := sideBarItems l]> h1) ∧ h !! r = None ∧ r ≠ data.
Proof.
  intros Hl h1 r.
  assert (Hr : r ∉ dom h1) by apply is_fresh.
  split_and!.
  - unfold Store.beforeCreateSideBarItems, mbind, Store.M_bind, Store.sort.
    rewrite Hl. unfold Store.filter. fold h1.
    unfold h1 at 1. by rewrite lookup_insert_eq.
  - unfold h1 in Hr. rewrite dom_insert_L in Hr.
    apply not_elem_of_dom. set_solver.
  - unfold h1 in Hr. rewrite dom_insert_L in Hr. set_solver.
Qed.

End callback.

Section described_sort.

Lemma stable_sort_by_key_ascending l :
  ascending getOrder (stable_sort_by_key getOrder l).
Proof.
  apply stable_sort_by_ascending; [apply getOrder_not_NaN | apply by_key_after].
Qed.

Lemma stable_sort_by_key_stable l :
  same_order_within_keys getOrder (stable_sort_by_key getOrder l) l.
Proof.
  apply stable_sort_by_stable; [apply getOrder_not_NaN | apply by_key_after].
Qed.

(** Sorting with the comparator [getOrder(a) - getOrder(b)] is sorting by
    the order key. *)
Lemma Array_sort_by_key l :
  Array_sort compareFn l = stable_sort_by_key getOrder l.
Proof.
  apply (stable_sort_unique getOrder).
  - apply Array_sort_ascending.
  - apply stable_sort_by_key_ascending.
  - intros k. by rewrite Array_sort_stable, stable_sort_by_key_stable.
Qed.

Lemma call_spec (h : Store.heap) data l :
  h !! data = Some l →
  Store.call data h = Some (sideBarItems l, data_after l).
Proof.
  intros Hl. unfold Store.call.
  destruct (beforeCreateSideBarItems_run h data l Hl) as (-> & _ & Hne).
  rewrite lookup_insert_eq, lookup_insert_ne, lookup_insert_eq; done.
Qed.

End described_sort.

(** * The claims *)

(** ** C1: the landing page comes first *)

(** C1 as stated fails: a filename whose digits read 0 ties with
    ["index.md"], and the tie is kept in input order. *)
Lemma index_md_not_first_after_zero :
  "index.md" ∈ ["0-intro.md"; "index.md"] ∧
  sideBarItems ["0-intro.md"; "index.md"] = ["0-intro.md"; "index.md"] ∧
  head (sideBarItems ["0-intro.md"; "index.md"]) ≠ Some "index.md".
Proof. split_and!; [set_solver | by vm_compute | by vm_compute]. Qed.

(** C1 (amended): when the input contains ["index.md"] and no filename
    before its first occurrence has order key 0, the output starts with
    ["index.md"]. *)
Theorem index_md_first pre post :
  (∀ f, f ∈ pre → getOrder f ≠ Fin 0) →
  head (sideBarItems (pre ++ "index.md" :: post)) = Some "index.md".
Proof.
  intros Hpre.
  pose proof (sideBarItems_stable (pre ++ "index.md" :: post) (Fin 0)) as Hst.
  pose proof (sideBarItems_ascending (pre ++ "index.md" :: post)) as Hasc.
  rewrite filter_key_comm, filter_app, filter_cons_True in Hst by done.
  replace (filter (λ x, getOrder x = Fin 0) pre) with (@nil string) in Hst.
  2:{ symmetry. apply filter_none. intros f Hf. by apply Hpre. }
  rewrite app_nil_l, filter_cons_True in Hst by done.
  destruct (sideBarItems (pre ++ "index.md" :: post)) as [|y out]; [done|].
  simpl. f_equal.
  apply StronglySorted_cons in Hasc as [Hy _].
  assert (Hin : "index.md" ∈ y :: out).
  { assert ("index.md" ∈ filter (λ x, getOrder x = Fin 0) (y :: out)) as Hin
      by (rewrite Hst; left).
    by apply list_elem_of_filter in Hin as [_ ?]. }
  assert (Hk : getOrder y = Fin 0).
  { apply elem_of_cons in Hin as [<-|Hin]; [done|].
    rewrite Forall_forall in Hy.
    apply NumberFacts.le_antisym; [apply (Hy _ Hin) | apply getOrder_nonneg]. }
  rewrite filter_cons_True in Hst by done. by injection Hst.
Qed.

Lemma index_md_first_witness :
  (∀ f, f ∈ ["about.md"; "2.md"] → getOrder f ≠ Fin 0) ∧
  head (sideBarItems (["about.md"; "2.md"] ++ "index.md" :: ["1.md"; "0.md"]))
  = Some "index.md".
Proof.
  assert (H : ∀ f, f ∈ ["about.md"; "2.md"] → getOrder f ≠ Fin 0).
  { intros f Hf. apply elem_of_cons in Hf as [->|Hf]; [by vm_compute|].
    apply elem_of_cons in Hf as [->|Hf]; [by vm_compute|].
    by apply elem_of_nil in Hf. }
  split; [exact H | exact (index_md_first _ _ H)].
Defined.

(** ** C2: what a call does to its argument *)

(** C2 as stated fails: [sort] works in place, so an argument array that
    was not in key order holds other contents after the call. *)
Lemma argument_array_is_sorted_in_place :
  Store.call 1%positive {[ 1%positive := ["2.md"; ".DS_Store"; "1.md"] ]}
  = Some (["1.md"; "2.md"], ["1.md"; "2.md"; ".DS_Store"]) ∧
  ["1.md"; "2.md"; ".DS_Store"] ≠ ["2.md"; ".DS_Store"; "1.md"].
Proof. split; [by vm_compute | done]. Qed.

(** C2 (amended): a call overwrites its argument array with the same
    filenames stably sorted by order key (the artifact included), which
    leaves the array as it was exactly when it was already in key order; the
    result is a newly allocated array, and no other array of the store is
    read or written. *)
Theorem call_sorts_argument_in_place (h : Store.heap) data l :
  h !! data = Some l →
  ∃ r,
    Store.beforeCreateSideBarItems data h
    = Some (r, <[r := sideBarItems l]> (<[data := data_after l]> h)) ∧
    h !! r = None ∧ r ≠ data ∧
    data_after l ≡ₚ l ∧
    ascending getOrder (data_after l) ∧
    same_order_within_keys getOrder (data_after l) l ∧
    (data_after l = l ↔ ascending getOrder l).
Proof.
  intros Hl.
  destruct (beforeCreateSideBarItems_run h data l Hl) as (Hrun & Hfresh & Hne).
  eexists. split_and!; [exact Hrun | exact Hfresh | exact Hne | ..].
  - apply Array_sort_perm.
  - apply Array_sort_ascending.
  - apply Array_sort_stable.
  - apply Array_sort_id.
Qed.

Lemma call_sorts_argument_in_place_witness :
  ({[ 1%positive := ["2.md"; ".DS_Store"; "1.md"] ]} : Store.heap) !! 1%positive
  = Some ["2.md"; ".DS_Store"; "1.md"] ∧
  ∃ r,
    Store.beforeCreateSideBarItems 1%positive
      {[ 1%positive := ["2.md"; ".DS_Store"; "1.md"] ]}
    = Some (r, <[r := sideBarItems ["2.md"; ".DS_Store"; "1.md"]]>
                 (<[1%positive := data_after ["2.md"; ".DS_Store"; "1.md"]]>
                    {[ 1%positive := ["2.md"; ".DS_Store"; "1.md"] ]})) ∧
    r ≠ 1%positive.
Proof.
  assert (H : ({[ 1%positive := ["2.md"; ".DS_Store"; "1.md"] ]} : Store.heap)
              !! 1%positive = Some ["2.md"; ".DS_Store"; "1.md"])
    by reflexivity.
  split; [exact H|].
  destruct (call_sorts_argument_in_place _ _ _ H) as (r & Hr & _ & Hne & _).
  exists r. split; [exact Hr | exact Hne].
Defined.

(** ** C3: filenames without a digit *)

(** C3 as stated fails: a digit run may read more than the sentinel 999,
    and ["index.md"] has no digit but key 0. *)
Lemma digit_free_not_always_last :
  sideBarItems ["1000.md"; "about.md"] = ["about.md"; "1000.md"] ∧
  no_digit "about.md" = true ∧ has_digit "1000.md" = true ∧
  sideBarItems ["1.md"; "index.md"] = ["index.md"; "1.md"] ∧
  no_digit "index.md" = true ∧ has_digit "1.md" = true.
Proof. split_and!; by vm_compute. Qed.

(** C3 (amended): in the output, a filename without a digit other than
    ["index.md"] comes after every filename whose order key is below 999:
    no such filename follows it. *)
Theorem digit_free_after_keys_below_999 data l1 f l2 g :
  sideBarItems data = l1 ++ f :: l2 →
  no_digit f = true → f ≠ "index.md" →
  lt (getOrder g) (Fin 999) →
  g ∉ l2.
Proof.
  intros Hout Hf Hne [Hle Hneq] Hg.
  pose proof (sideBarItems_ascending data) as Hasc.
  rewrite Hout in Hasc. apply StronglySorted_app_1_r in Hasc.
  apply StronglySorted_cons in Hasc as [Hfl _].
  rewrite Forall_forall in Hfl. specialize (Hfl g Hg).
  unfold key_le in Hfl. rewrite (getOrder_no_digit f Hne Hf) in Hfl.
  apply Hneq. by apply NumberFacts.le_antisym.
Qed.

Lemma digit_free_after_keys_below_999_witness :
  sideBarItems ["readme.md"; "about.md"; "5.md"]
  = ["5.md"] ++ "readme.md" :: ["about.md"] ∧
  no_digit "readme.md" = true ∧ "readme.md" ≠ "index.md" ∧
  lt (getOrder "5.md") (Fin 999) ∧
  "5.md" ∉ ["about.md"].
Proof.
  assert (H1 : sideBarItems ["readme.md"; "about.md"; "5.md"]
               = ["5.md"] ++ "readme.md" :: ["about.md"]) by (by vm_compute).
  assert (H2 : no_digit "readme.md" = true) by reflexivity.
  assert (H3 : "readme.md" ≠ "index.md") by discriminate.
  assert (H4 : lt (getOrder "5.md") (Fin 999)).
  { split; [vm_compute; discriminate | vm_compute; discriminate]. }
  split_and!; [exact H1 | exact H2 | exact H3 | exact H4 |].
  exact (digit_free_after_keys_below_999 _ _ _ _ _ H1 H2 H3 H4).
Defined.

(** ** C4: the order key of a filename with digits *)

(** C4 as stated fails: [parseInt] returns a double, and an integer above
    2^53 need not be one.  Here the run reads 2^53 + 1 and the key is 2^53. *)
Lemma getOrder_rounds_long_runs :
  "9007199254740993.md" ≠ "index.md" ∧
  leftmost_run "9007199254740993.md" "9007199254740993" ∧
  decimal_value "9007199254740993" = 9007199254740993 ∧
  getOrder "9007199254740993.md" = Fin 9007199254740992 ∧
  getOrder "9007199254740993.md" ≠ Fin (decimal_value "9007199254740993").
Proof.
  split_and!; [done | | by vm_compute | by vm_compute | by vm_compute].
  exists EmptyString, ".md". by split_and!.
Qed.

(** C4 (amended): a filename other than ["index.md"] that contains a digit
    has a leftmost maximal run of digits, and [getOrder] returns the integer
    this run denotes in base 10, rounded to the nearest double (an infinity
    once the rounding reaches 2^1024); that is the integer itself whenever it
    is at most 2^53. *)
Theorem getOrder_leftmost_run item :
  item ≠ "index.md" → has_digit item = true →
  (∃ run, leftmost_run item run) ∧
  ∀ run, leftmost_run item run →
    getOrder item = of_Z (decimal_value run) ∧
    (decimal_value run ≤ 2 ^ 53 → getOrder item = Fin (decimal_value run)).
Proof.
  intros Hne Hdig. split; [by apply leftmost_run_exists|].
  intros run Hrun. pose proof (getOrder_run item run Hne Hrun) as Hk.
  split; [done|]. intros Hsmall. rewrite Hk.
  apply NumberFacts.of_Z_exact.
  destruct Hrun as (_ & _ & _ & _ & Hd & _ & _).
  pose proof (decimal_value_nonneg run Hd). lia.
Qed.

Lemma getOrder_leftmost_run_witness :
  "a2b30.md" ≠ "index.md" ∧ has_digit "a2b30.md" = true ∧
  leftmost_run "a2b30.md" "2" ∧
  getOrder "a2b30.md" = of_Z (decimal_value "2") ∧
  decimal_value "2" ≤ 2 ^ 53 ∧
  getOrder "a2b30.md" = Fin (decimal_value "2").
Proof.
  assert (H1 : "a2b30.md" ≠ "index.md") by discriminate.
  assert (H2 : has_digit "a2b30.md" = true) by reflexivity.
  assert (H3 : leftmost_run "a2b30.md" "2").
  { exists "a", "b30.md".
    split_and!;
      [reflexivity | reflexivity | reflexivity | discriminate | reflexivity]. }
  assert (H4 : decimal_value "2" ≤ 2 ^ 53) by (by vm_compute).
  destruct (getOrder_leftmost_run "a2b30.md" H1 H2) as [_ Hall].
  destruct (Hall "2" H3) as [Hk Hexact].
  split_and!;
    [exact H1 | exact H2 | exact H3 | exact Hk | exact H4 | exact (Hexact H4)].
Defined.

(** ** C5: the output is the input without the artifact, stably sorted *)

(** C5: the output is a permutation of the input without [".DS_Store"], in
    ascending order of order key, and filenames of equal key stand in the
    order they had in the input. *)
Theorem sideBarItems_sorted_permutation data :
  sideBarItems data ≡ₚ filter (λ n, n ≠ ".DS_Store") data ∧
  ascending getOrder (sideBarItems data) ∧
  same_order_within_keys getOrder
    (sideBarItems data) (filter (λ n, n ≠ ".DS_Store") data).
Proof.
  split_and!;
    [apply sideBarItems_perm | apply sideBarItems_ascending
     | apply sideBarItems_stable].
Qed.

(** ** C6: sorting then filtering is filtering then sorting *)

(** C6: sorting the whole list and then removing [".DS_Store"], as the code
    does, gives what removing it first and then stable-sorting by order key
    gives. *)
Theorem sideBarItems_as_described data :
  sideBarItems data = filterAndSort_described data.
Proof.
  unfold filterAndSort_described. apply (stable_sort_unique getOrder).
  - apply sideBarItems_ascending.
  - apply stable_sort_by_key_ascending.
  - intros k. by rewrite sideBarItems_stable, stable_sort_by_key_stable.
Qed.

(** ** C7: idempotence *)

(** C7: the callback applied to its own output returns that output. *)
Theorem sideBarItems_idempotent data :
  sideBarItems (sideBarItems data) = sideBarItems data.
Proof.
  rewrite (sideBarItems_unfold (sideBarItems data)).
  rewrite (proj2 (Array_sort_id _) (sideBarItems_ascending data)).
  apply filter_all. intros n Hn ->. by apply sideBarItems_no_DS_Store in Hn.
Qed.

(** ** C8: key 0 is shared *)

(** C8: a filename whose leftmost run of digits reads 0 has order key 0,
    the key of ["index.md"], without being ["index.md"]. *)
Theorem zero_run_shares_key_of_index item run :
  leftmost_run item run → decimal_value run = 0 →
  getOrder item = Fin 0 ∧
  getOrder item = getOrder "index.md" ∧
  item ≠ "index.md".
Proof.
  intros Hrun Hz.
  assert (Hne : item ≠ "index.md").
  { intros ->. by apply leftmost_run_has_digit in Hrun. }
  rewrite (getOrder_run item run Hne Hrun), Hz. done.
Qed.

Lemma zero_run_shares_key_of_index_witness :
  leftmost_run "00-setup.md" "00" ∧ decimal_value "00" = 0 ∧
  getOrder "00-setup.md" = Fin 0 ∧
  getOrder "00-setup.md" = getOrder "index.md" ∧
  "00-setup.md" ≠ "index.md".
Proof.
  assert (H1 : leftmost_run "00-setup.md" "00").
  { exists EmptyString, "-setup.md".
    split_and!; [reflexivity | reflexivity | reflexivity | discriminate | reflexivity]. }
  assert (H2 : decimal_value "00" = 0) by reflexivity.
  destruct (zero_run_shares_key_of_index "00-setup.md" "00" H1 H2)
    as (Hk & Hsame & Hne).
  split_and!; [exact H1 | exact H2 | exact Hk | exact Hsame | exact Hne].
Defined.

(** ** C9: the artifact is never in the output *)

(** C9: [".DS_Store"] is not an element of the output, however often it
    occurs in the input. *)
Theorem no_DS_Store_in_sideBarItems data : ".DS_Store" ∉ sideBarItems data.
Proof. apply sideBarItems_no_DS_Store. Qed.

(** ** C10: the end-to-end example *)

(** C10: the documented example input gives the documented output. *)
Theorem sideBarItems_end_to_end :
  sideBarItems
    ["about.md"; "index.md"; "10-install.md"; "2-quickstart.md"; ".DS_Store";
     "99-faq.md"]
  = ["index.md"; "2-quickstart.md"; "10-install.md"; "99-faq.md"; "about.md"].
Proof. by vm_compute. Qed.

(** * Further properties of the code *)

(** ** Rounding to a double is monotone *)

Module RoundingFacts.

(** [round53] above 2^53, with the shifts written as a division: quotient
    and remainder by the spacing of the doubles around [m]. *)
Lemma round53_unfold m :
  52 < Z.log2 m →
  ∃ q r,
    m = q * 2 ^ (Z.log2 m - 52) + r ∧ 0 ≤ r < 2 ^ (Z.log2 m - 52) ∧
    round53 m
    = (if 2 * r <? 2 ^ (Z.log2 m - 52) then q
       else if 2 ^ (Z.log2 m - 52) <? 2 * r then q + 1
       else if Z.even q then q else q + 1) * 2 ^ (Z.log2 m - 52).
Proof.
  intros HL. unfold round53.
  destruct (Z.leb_spec (Z.log2 m - 52) 0) as [|He]; [lia|].
  set (e := Z.log2 m - 52) in *.
  assert (Hg : 0 < 2 ^ e) by (apply Z.pow_pos_nonneg; lia).
  assert (Hh : 2 ^ e = 2 * 2 ^ (e - 1)).
  { rewrite <-Z.pow_succ_r by lia. f_equal. lia. }
  exists (m / 2 ^ e), (m mod 2 ^ e).
  pose proof (Z.div_mod m (2 ^ e) ltac:(lia)) as Hdm.
  pose proof (Z.mod_pos_bound m (2 ^ e) Hg) as Hr.
  split_and!; [lia | lia | lia |].
  rewrite Z.shiftr_div_pow2, !Z.shiftl_mul_pow2 by lia.
  replace (m - m / 2 ^ e * 2 ^ e) with (m mod 2 ^ e) by lia.
  assert (Hlo : (m mod 2 ^ e <? 1 * 2 ^ (e - 1))
                = (2 * (m mod 2 ^ e) <? 2 ^ e)).
  { destruct (Z.ltb_spec (m mod 2 ^ e) (1 * 2 ^ (e - 1))),
      (Z.ltb_spec (2 * (m mod 2 ^ e)) (2 ^ e)); lia || done. }
  assert (Hhi : (1 * 2 ^ (e - 1) <? m mod 2 ^ e)
                = (2 ^ e <? 2 * (m mod 2 ^ e))).
  { destruct (Z.ltb_spec (1 * 2 ^ (e - 1)) (m mod 2 ^ e)),
      (Z.ltb_spec (2 ^ e) (2 * (m mod 2 ^ e))); lia || done. }
  by rewrite Hlo, Hhi.
Qed.

(** Rounding stays within the binade of its argument. *)
Lemma round53_bounds m :
  0 < m → 2 ^ Z.log2 m ≤ round53 m ≤ 2 ^ (Z.log2 m + 1).
Proof.
  intros Hm. pose proof (Z.log2_spec m Hm) as Hspec.
  replace (Z.succ (Z.log2 m)) with (Z.log2 m + 1) in Hspec by lia.
  destruct (decide (Z.log2 m ≤ 52)) as [HL|HL].
  { rewrite NumberFacts.round53_small by done. lia. }
  destruct (round53_unfold m ltac:(lia)) as (q & r & Hqr & Hr & ->).
  set (g := 2 ^ (Z.log2 m - 52)) in *.
  assert (Hg : 0 < g) by (apply Z.pow_pos_nonneg; lia).
  assert (HL0 : 2 ^ Z.log2 m = 2 ^ 52 * g).
  { unfold g. rewrite <-Z.pow_add_r by lia. f_equal. lia. }
  assert (HL1 : 2 ^ (Z.log2 m + 1) = 2 ^ 53 * g).
  { unfold g. rewrite <-Z.pow_add_r by lia. f_equal. lia. }
  rewrite HL0, HL1 in *.
  assert (2 ^ 52 ≤ q < 2 ^ 53) as [Hq0 Hq1] by nia.
  split; apply Z.mul_le_mono_nonneg_r; try lia; repeat case_match; lia.
Qed.

Lemma round53_mono_same_binade a b :
  0 < a → a ≤ b → Z.log2 a = Z.log2 b → round53 a ≤ round53 b.
Proof.
  intros Ha Hab HL.
  destruct (decide (Z.log2 a ≤ 52)) as [Hs|Hs].
  { rewrite !NumberFacts.round53_small by lia. done. }
  destruct (round53_unfold a ltac:(lia)) as (qa & ra & Hqa & Hra & ->).
  destruct (round53_unfold b ltac:(lia)) as (qb & rb & Hqb & Hrb & ->).
  rewrite <-HL in *. set (g := 2 ^ (Z.log2 a - 52)) in *.
  assert (Hg : 0 < g) by (apply Z.pow_pos_nonneg; lia).
  assert (Hq : qa ≤ qb) by nia.
  apply Z.mul_le_mono_nonneg_r; [lia|].
  destruct (decide (qa = qb)) as [->|Hne].
  - assert (ra ≤ rb) by nia.
    destruct (Z.ltb_spec (2 * ra) g), (Z.ltb_spec (2 * rb) g),
      (Z.ltb_spec g (2 * ra)), (Z.ltb_spec g (2 * rb));
      try lia; destruct (Z.even qb); lia.
  - assert (qa + 1 ≤ qb) by lia.
    repeat case_match; lia.
Qed.

Lemma round53_mono a b : 0 ≤ a → a ≤ b → round53 a ≤ round53 b.
Proof.
  intros Ha Hab.
  destruct (decide (a = 0)) as [->|Ha0].
  { apply NumberFacts.round53_nonneg. lia. }
  pose proof (Z.log2_le_mono a b Hab) as HL.
  destruct (decide (Z.log2 a = Z.log2 b)) as [Heq|Hne].
  { apply round53_mono_same_binade; lia. }
  pose proof (round53_bounds a ltac:(lia)) as [_ Hua].
  pose proof (round53_bounds b ltac:(lia)) as [Hlb _].
  etransitivity; [exact Hua|]. etransitivity; [|exact Hlb].
  apply Z.pow_le_mono_r; lia.
Qed.

(** The Number value of a non-negative integer grows with the integer. *)
Lemma of_Z_mono a b : 0 ≤ a → a ≤ b → le (of_Z a) (of_Z b).
Proof.
  intros Ha Hab. pose proof (round53_mono a b Ha Hab) as Hr.
  pose proof (NumberFacts.round53_nonneg a Ha) as Hra.
  unfold of_Z. rewrite !Z.abs_eq by lia.
  pose proof (Z.log2_le_mono _ _ Hr) as HL.
  destruct (Z.ltb_spec a 0), (Z.ltb_spec b 0); try lia.
  destruct (Z.leb_spec 1024 (Z.log2 (round53 b))).
  - case_match; simpl; done.
  - destruct (Z.leb_spec 1024 (Z.log2 (round53 a))); [lia|]. simpl. nia.
Qed.

(** The largest integer that still rounds to a finite double, and the
    first one that does not. *)
Lemma of_Z_overflow z :
  0 ≤ z → of_Z z = PosInf ↔ 2 ^ 1024 - 2 ^ 970 ≤ z.
Proof.
  intros Hz. split.
  - intros Hinf.
    destruct (Z.le_gt_cases (2 ^ 1024 - 2 ^ 970) z) as [|Hlt]; [done|].
    pose proof (of_Z_mono z (2 ^ 1024 - 2 ^ 970 - 1) Hz ltac:(lia)) as Hle.
    rewrite Hinf in Hle. vm_compute in Hle. done.
  - intros Hge.
    pose proof (of_Z_mono (2 ^ 1024 - 2 ^ 970) z ltac:(lia) Hge) as Hle.
    replace (of_Z (2 ^ 1024 - 2 ^ 970)) with PosInf in Hle
      by (by vm_compute).
    destruct (of_Z z); done.
Qed.

End RoundingFacts.

(** ** Helpers on keys and filters *)

Section more_facts.

(** The output is determined by the filenames of each key, in input order,
    the artifact left out. *)
Lemma sideBarItems_ext l l' :
  same_order_within_keys getOrder
    (filter (λ n, n ≠ ".DS_Store") l) (filter (λ n, n ≠ ".DS_Store") l') →
  sideBarItems l = sideBarItems l'.
Proof.
  intros Hso. apply (stable_sort_unique getOrder);
    [apply sideBarItems_ascending | apply sideBarItems_ascending |].
  intros k. by rewrite !sideBarItems_stable.
Qed.

Lemma filter_key_NoDup {A} (key : A → number) k (l : list A) :
  NoDup (key <$> l) → (length (filter (λ x, key x = k) l) ≤ 1)%nat.
Proof.
  induction l as [|x l IH]; [simpl; lia|].
  rewrite fmap_cons, NoDup_cons. intros [Hx Hl].
  rewrite filter_cons. case_decide as Hk; [|by apply IH].
  rewrite filter_none; [simpl; lia|].
  intros y Hy Hky. apply Hx. rewrite Hk, <-Hky. by apply list_elem_of_fmap_2.
Qed.

Lemma Permutation_short {A} (l1 l2 : list A) :
  l1 ≡ₚ l2 → (length l1 ≤ 1)%nat → l1 = l2.
Proof.
  intros Hp Hlen. destruct l1 as [|x [|y l1]]; simpl in Hlen; [| |lia].
  - symmetry. by apply Permutation_nil_r.
  - symmetry. by apply Permutation_singleton_r.
Qed.

Lemma getOrder_cases item :
  getOrder item = PosInf ∨ ∃ z, 0 ≤ z ∧ getOrder item = Fin z.
Proof.
  pose proof (getOrder_nonneg item) as H.
  destruct (getOrder item) as [|z| |]; simpl in H; [done | | by left | done].
  right. by exists z.
Qed.

Lemma data_after_twice l : data_after (data_after l) = data_after l.
Proof. apply Array_sort_id, Array_sort_ascending. Qed.

Lemma sideBarItems_data_after l : sideBarItems (data_after l) = sideBarItems l.
Proof.
  unfold sideBarItems. fold (data_after (data_after l)) (data_after l).
  by rewrite data_after_twice.
Qed.

End more_facts.

(** ** The order key: range, sentinel, growth *)

(** X1: a filename other than ["index.md"] without any digit has the
    sentinel 999 as its order key. *)
Theorem getOrder_without_digit item :
  item ≠ "index.md" → no_digit item = true → getOrder item = Fin 999.
Proof.
  intros Hne Hnd. unfold getOrder. rewrite decide_False by done.
  by rewrite (proj2 (match_order_None item) Hnd).
Qed.

Lemma getOrder_without_digit_witness :
  ".DS_Store" ≠ "index.md" ∧ no_digit ".DS_Store" = true ∧
  getOrder ".DS_Store" = Fin 999.
Proof.
  assert (H1 : ".DS_Store" ≠ "index.md") by discriminate.
  assert (H2 : no_digit ".DS_Store" = true) by reflexivity.
  split_and!; [exact H1 | exact H2 | exact (getOrder_without_digit _ H1 H2)].
Defined.

(** X2: an order key is a non-negative integer or [+Infinity]: [getOrder]
    never returns NaN, a negative number or [-Infinity] (a minus sign before
    the digits is not part of the match). *)
Theorem getOrder_range item :
  (getOrder item = PosInf ∨ ∃ z, 0 ≤ z ∧ getOrder item = Fin z) ∧
  getOrder item ≠ NaN ∧ getOrder item ≠ NegInf ∧
  le (getOrder "index.md") (getOrder item).
Proof.
  split_and!.
  - apply getOrder_cases.
  - apply getOrder_not_NaN.
  - destruct (getOrder_cases item) as [->|(z & _ & ->)]; done.
  - apply getOrder_nonneg.
Qed.

(** X9: the order key grows with the integer that the leftmost run
    denotes, also where keys are rounded: a larger number never gets a
    smaller key. *)
Theorem getOrder_monotone item1 run1 item2 run2 :
  item1 ≠ "index.md" → item2 ≠ "index.md" →
  leftmost_run item1 run1 → leftmost_run item2 run2 →
  decimal_value run1 ≤ decimal_value run2 →
  le (getOrder item1) (getOrder item2).
Proof.
  intros Hne1 Hne2 Hrun1 Hrun2 Hle.
  rewrite (getOrder_run _ _ Hne1 Hrun1), (getOrder_run _ _ Hne2 Hrun2).
  apply RoundingFacts.of_Z_mono; [|done].
  destruct Hrun1 as (_ & _ & _ & _ & Hd & _ & _).
  by apply decimal_value_nonneg.
Qed.

Lemma getOrder_monotone_witness :
  leftmost_run "v9007199254740993.md" "9007199254740993" ∧
  leftmost_run "v9007199254740995.md" "9007199254740995" ∧
  decimal_value "9007199254740993" ≤ decimal_value "9007199254740995" ∧
  le (getOrder "v9007199254740993.md") (getOrder "v9007199254740995.md").
Proof.
  assert (H1 : "v9007199254740993.md" ≠ "index.md") by discriminate.
  assert (H2 : "v9007199254740995.md" ≠ "index.md") by discriminate.
  assert (H3 : leftmost_run "v9007199254740993.md" "9007199254740993").
  { exists "v", ".md".
    split_and!;
      [reflexivity | reflexivity | reflexivity | discriminate | reflexivity]. }
  assert (H4 : leftmost_run "v9007199254740995.md" "9007199254740995").
  { exists "v", ".md".
    split_and!;
      [reflexivity | reflexivity | reflexivity | discriminate | reflexivity]. }
  assert (H5 : decimal_value "9007199254740993"
               ≤ decimal_value "9007199254740995") by (by vm_compute).
  split_and!; [exact H3 | exact H4 | exact H5 |].
  exact (getOrder_monotone _ _ _ _ H1 H2 H3 H4 H5).
Defined.

(** X10: the order key is [+Infinity] exactly when the leftmost run denotes
    at least 2^1024 - 2^970, the first integer that rounds beyond the
    largest double; every shorter number has a finite key. *)
Theorem getOrder_infinite item run :
  item ≠ "index.md" → leftmost_run item run →
  getOrder item = PosInf ↔ 2 ^ 1024 - 2 ^ 970 ≤ decimal_value run.
Proof.
  intros Hne Hrun. rewrite (getOrder_run _ _ Hne Hrun).
  apply RoundingFacts.of_Z_overflow.
  destruct Hrun as (_ & _ & _ & _ & Hd & _ & _).
  by apply decimal_value_nonneg.
Qed.

Lemma getOrder_infinite_witness :
  "10-guide.md" ≠ "index.md" ∧ leftmost_run "10-guide.md" "10" ∧
  (getOrder "10-guide.md" = PosInf ↔ 2 ^ 1024 - 2 ^ 970 ≤ decimal_value "10").
Proof.
  assert (H1 : "10-guide.md" ≠ "index.md") by discriminate.
  assert (H2 : leftmost_run "10-guide.md" "10").
  { exists EmptyString, "-guide.md".
    split_and!;
      [reflexivity | reflexivity | reflexivity | discriminate | reflexivity]. }
  split_and!; [exact H1 | exact H2 | exact (getOrder_infinite _ _ H1 H2)].
Defined.

(** X11: zeros in front of the leftmost run do not change the order key:
    ["007-a.md"] and ["7-b.md"] tie. *)
Theorem getOrder_leading_zeros item1 item2 zeros run :
  item1 ≠ "index.md" → item2 ≠ "index.md" →
  string_forall (λ c, bool_decide (c = "0"%char)) zeros = true →
  leftmost_run item1 run → leftmost_run item2 (zeros +:+ run) →
  getOrder item2 = getOrder item1.
Proof.
  intros Hne1 Hne2 Hz Hrun1 Hrun2.
  rewrite (getOrder_run _ _ Hne1 Hrun1), (getOrder_run _ _ Hne2 Hrun2).
  f_equal. clear Hrun1 Hrun2.
  induction zeros as [|c zeros IH]; [done|].
  cbn [string_forall] in Hz. apply andb_prop in Hz as [Hc Hz].
  apply bool_decide_eq_true in Hc as ->.
  rewrite append_cons. rewrite <-(IH Hz). reflexivity.
Qed.

Lemma getOrder_leading_zeros_witness :
  string_forall (λ c, bool_decide (c = "0"%char)) "00" = true ∧
  leftmost_run "7-b.md" "7" ∧ leftmost_run "007-a.md" ("00" +:+ "7") ∧
  getOrder "007-a.md" = getOrder "7-b.md".
Proof.
  assert (H1 : "7-b.md" ≠ "index.md") by discriminate.
  assert (H2 : "007-a.md" ≠ "index.md") by discriminate.
  assert (H0 : string_forall (λ c, bool_decide (c = "0"%char)) "00" = true)
    by reflexivity.
  assert (H3 : leftmost_run "7-b.md" "7").
  { exists EmptyString, "-b.md".
    split_and!;
      [reflexivity | reflexivity | reflexivity | discriminate | reflexivity]. }
  assert (H4 : leftmost_run "007-a.md" ("00" +:+ "7")).
  { exists EmptyString, "-a.md".
    split_and!;
      [reflexivity | reflexivity | reflexivity | discriminate | reflexivity]. }
  split_and!; [exact H0 | exact H3 | exact H4 |].
  exact (getOrder_leading_zeros _ _ _ _ H1 H2 H0 H3 H4).
Defined.

(** ** The comparator *)

(** X3: the comparator orders two filenames as their order keys: its
    result is positive exactly when the first key is the larger, negative
    exactly when it is the smaller, and neither (zero or NaN) exactly when
    the keys are equal. *)
Theorem compareFn_sign a b :
  (gt0 (compareFn a b) = true ↔ lt (getOrder b) (getOrder a)) ∧
  (lt0 (compareFn a b) = true ↔ lt (getOrder a) (getOrder b)) ∧
  (gt0 (compareFn a b) = false ∧ lt0 (compareFn a b) = false
   ↔ getOrder a = getOrder b).
Proof.
  assert (Hgt : ∀ x y,
             gt0 (compareFn x y) = true ↔ lt (getOrder y) (getOrder x)).
  { intros x y. change (gt0 (compareFn x y)) with (sorts_after compareFn x y).
    rewrite compareFn_after. unfold lt. split.
    - intros Hn. split.
      + destruct (NumberFacts.le_total (getOrder x) (getOrder y));
          auto using getOrder_not_NaN; tauto.
      + intros Heq. apply Hn. rewrite Heq.
        apply NumberFacts.le_refl, getOrder_not_NaN.
    - intros [Hle Hne] Hle'. apply Hne. by apply NumberFacts.le_antisym. }
  assert (Hlt : ∀ x y,
             lt0 (compareFn x y) = true ↔ lt (getOrder x) (getOrder y)).
  { intros x y. unfold compareFn. rewrite NumberFacts.lt0_sub. apply Hgt. }
  split_and!; [apply Hgt | apply Hlt |].
  rewrite <-!not_true_iff_false, Hgt, Hlt. unfold lt. split.
  - intros [H1 H2].
    destruct (NumberFacts.le_total (getOrder a) (getOrder b))
      as [Hle|Hle]; auto using getOrder_not_NaN.
    + destruct (decide (getOrder a = getOrder b)); [done|]. tauto.
    + destruct (decide (getOrder b = getOrder a)); [done|]. tauto.
  - intros Heq. rewrite Heq. split; intros [_ ?]; done.
Qed.

(** X4: the comparator returns NaN exactly when both order keys are
    [+Infinity]; the sort then takes the two filenames as equal. *)
Theorem compareFn_NaN a b :
  compareFn a b = NaN ↔ getOrder a = PosInf ∧ getOrder b = PosInf.
Proof.
  unfold compareFn.
  destruct (getOrder_cases a) as [->|(x & _ & ->)],
           (getOrder_cases b) as [->|(y & _ & ->)]; simpl.
  - done.
  - split; [done | intros [_ ?]; done].
  - split; [done | intros [? _]; done].
  - split; [intros H; by apply NumberFacts.of_Z_not_NaN in H
           | intros [? _]; done].
Qed.

(** ** The output list *)

(** X5: whatever stands before ["index.md"] in the output has order key 0
    as well: only filenames whose digits read 0 can precede the landing
    page. *)
Theorem before_index_md_key_zero data l1 l2 g :
  sideBarItems data = l1 ++ "index.md" :: l2 → g ∈ l1 →
  getOrder g = Fin 0.
Proof.
  intros Hout Hg.
  pose proof (sideBarItems_ascending data) as Hasc. rewrite Hout in Hasc.
  assert (Hle : key_le getOrder g "index.md").
  { eapply StronglySorted_app_1_elem_of; [exact Hasc | exact Hg | left]. }
  apply NumberFacts.le_antisym; [exact Hle | apply getOrder_nonneg].
Qed.

Lemma before_index_md_key_zero_witness :
  sideBarItems ["1.md"; "0-intro.md"; "index.md"]
  = ["0-intro.md"] ++ "index.md" :: ["1.md"] ∧
  "0-intro.md" ∈ ["0-intro.md"] ∧ getOrder "0-intro.md" = Fin 0.
Proof.
  assert (H1 : sideBarItems ["1.md"; "0-intro.md"; "index.md"]
               = ["0-intro.md"] ++ "index.md" :: ["1.md"])
    by (by vm_compute).
  assert (H2 : "0-intro.md" ∈ ["0-intro.md"]) by left.
  split_and!; [exact H1 | exact H2 |].
  exact (before_index_md_key_zero _ _ _ _ H1 H2).
Defined.

(** X6: when no two filenames of the input share an order key, the output
    does not depend on the order in which the input lists them. *)
Theorem sideBarItems_order_independent l1 l2 :
  NoDup (getOrder <$> l1) → l1 ≡ₚ l2 →
  sideBarItems l1 = sideBarItems l2.
Proof.
  intros Hnd Hp. apply sideBarItems_ext. intros k.
  rewrite !filter_key_comm. f_equal.
  apply Permutation_short; [by rewrite Hp | by apply filter_key_NoDup].
Qed.

Lemma sideBarItems_order_independent_witness :
  NoDup (getOrder <$> ["b.md"; "2.md"; "index.md"; "10.md"]) ∧
  ["b.md"; "2.md"; "index.md"; "10.md"] ≡ₚ ["10.md"; "index.md"; "b.md"; "2.md"] ∧
  sideBarItems ["b.md"; "2.md"; "index.md"; "10.md"]
  = sideBarItems ["10.md"; "index.md"; "b.md"; "2.md"].
Proof.
  assert (H1 : NoDup (getOrder <$> ["b.md"; "2.md"; "index.md"; "10.md"])).
  { apply (bool_decide_unpack _). by vm_compute. }
  assert (H2 : ["b.md"; "2.md"; "index.md"; "10.md"]
               ≡ₚ ["10.md"; "index.md"; "b.md"; "2.md"]).
  { apply (bool_decide_unpack _). by vm_compute. }
  split_and!; [exact H1 | exact H2 |].
  exact (sideBarItems_order_independent _ _ H1 H2).
Defined.

(** X8: the output of a list put together from two parts is the output of
    the outputs of the parts put together: sorting and filtering a part
    beforehand changes nothing. *)
Theorem sideBarItems_of_parts l1 l2 :
  sideBarItems (sideBarItems l1 ++ sideBarItems l2) = sideBarItems (l1 ++ l2).
Proof.
  apply sideBarItems_ext. intros k.
  rewrite !filter_app.
  rewrite !(filter_all (λ n, n ≠ ".DS_Store") (sideBarItems _)).
  - by rewrite !sideBarItems_stable.
  - intros n Hn ->. by apply sideBarItems_no_DS_Store in Hn.
  - intros n Hn ->. by apply sideBarItems_no_DS_Store in Hn.
Qed.

(** ** Calling twice *)

(** X7: a second call on the same array, which the first call has sorted,
    leaves the array as it is and returns another new array with the same
    contents; the array returned first is not touched. *)
Theorem second_call_repeats_result (h : Store.heap) data l :
  h !! data = Some l →
  ∃ r1 h1 r2 h2,
    Store.beforeCreateSideBarItems data h = Some (r1, h1) ∧
    Store.beforeCreateSideBarItems data h1 = Some (r2, h2) ∧
    r2 ≠ r1 ∧ r2 ≠ data ∧
    h2 !! r2 = Some (sideBarItems l) ∧
    h2 !! r1 = Some (sideBarItems l) ∧
    h2 !! data = h1 !! data ∧
    h1 !! data = Some (data_after l).
Proof.
  intros Hl.
  destruct (beforeCreateSideBarItems_run h data l Hl) as (Hrun1 & Hf1 & Hne1).
  set (r1 := fresh (dom (<[data := data_after l]> h))) in *.
  set (h1 := <[r1 := sideBarItems l]> (<[data := data_after l]> h)) in *.
  assert (Hd1 : h1 !! data = Some (data_after l)).
  { unfold h1. by rewrite lookup_insert_ne, lookup_insert_eq. }
  assert (Hr1 : h1 !! r1 = Some (sideBarItems l)).
  { unfold h1. by rewrite lookup_insert_eq. }
  destruct (beforeCreateSideBarItems_run h1 data _ Hd1)
    as (Hrun2 & Hf2 & Hne2).
  set (r2 := fresh (dom (<[data := data_after (data_after l)]> h1))) in *.
  assert (Hne21 : r2 ≠ r1) by (intros Heq; rewrite Heq in Hf2; congruence).
  eexists r1, h1, r2, _.
  split_and!; [exact Hrun1 | exact Hrun2 | done | done | ..].
  - by rewrite lookup_insert_eq, sideBarItems_data_after.
  - by rewrite lookup_insert_ne, lookup_insert_ne.
  - by rewrite lookup_insert_ne, lookup_insert_eq, data_after_twice.
  - done.
Qed.

Lemma second_call_repeats_result_witness :
  ({[ 1%positive := ["2.md"; ".DS_Store"; "1.md"] ]} : Store.heap) !! 1%positive
  = Some ["2.md"; ".DS_Store"; "1.md"] ∧
  ∃ r1 h1 r2 h2,
    Store.beforeCreateSideBarItems 1%positive
      {[ 1%positive := ["2.md"; ".DS_Store"; "1.md"] ]} = Some (r1, h1) ∧
    Store.beforeCreateSideBarItems 1%positive h1 = Some (r2, h2) ∧
    h2 !! r2 = h2 !! r1.
Proof.
  assert (H : ({[ 1%positive := ["2.md"; ".DS_Store"; "1.md"] ]} : Store.heap)
              !! 1%positive = Some ["2.md"; ".DS_Store"; "1.md"])
    by reflexivity.
  split; [exact H|].
  destruct (second_call_repeats_result _ _ _ H)
    as (r1 & h1 & r2 & h2 & Hrun1 & Hrun2 & _ & _ & Hr2 & Hr1 & _).
  exists r1, h1, r2, h2.
  split_and!; [exact Hrun1 | exact Hrun2 | by rewrite Hr2, Hr1].
Defined.

(** ** Inputs the callback returns as they are *)

(** X12: the callback returns the contents it was given exactly when these
    are in ascending order of order key and hold no [".DS_Store"]. *)
Theorem sideBarItems_fixed_point data :
  sideBarItems data = data
  ↔ ascending getOrder data ∧ ".DS_Store" ∉ data.
Proof.
  split.
  - intros Heq. split.
    + rewrite <-Heq. apply sideBarItems_ascending.
    + rewrite <-Heq. apply sideBarItems_no_DS_Store.
  - intros [Hasc Hno]. rewrite sideBarItems_unfold.
    rewrite (proj2 (Array_sort_id data) Hasc).
    apply filter_all. by intros n Hn ->.
Qed.
